(** * Elementwise functors of [kernel_primitives/helper_primitives.h]

    A shallow embedding of the exponential / logarithm dispatch functions
    of namespace [details] and of the three functors
    [ExpLogitTransformer], [IdentityFunctor] and [DivideFunctor].

    Scalars are IEEE-754 binary floating-point numbers in the sense of the
    Standard Library's [SpecFloat]: a value is a [spec_float] and every
    operation rounds to nearest, ties to even, in the format of its type. *)

From Stdlib Require Import ZArith Bool List Lia.
From Stdlib Require Import Floats.SpecFloat.
Import ListNotations.

Local Open Scope Z_scope.

(** ** Floating-point formats and typed scalars *)

Module IEEE754.

(** [prec] counts the bits of the significand, the implicit one
    included; [emax] is the exponent of the infinities. *)
Record format : Set := Format { prec : Z; emax : Z }.

Definition binary16 : format := Format 11 16.
Definition binary32 : format := Format 24 128.
Definition binary64 : format := Format 53 1024.

Definition format_eqb (a b : format) : bool :=
  (prec a =? prec b) && (emax a =? emax b).

(** A scalar of format [fmt].  The index is a phantom: it records the
    static C++ type of the value, the representation carries no tag. *)
Record fp (fmt : format) : Set := FP { sf : spec_float }.
Arguments FP {fmt} _.
Arguments sf {fmt} _.

Definition valid {fmt} (x : fp fmt) : bool :=
  valid_binary (prec fmt) (emax fmt) (sf x).

Definition is_finite {fmt} (x : fp fmt) : bool :=
  match sf x with
  | S754_zero _ | S754_finite _ _ _ => true
  | S754_infinity _ | S754_nan => false
  end.

Definition fmul {fmt} (x y : fp fmt) : fp fmt :=
  FP (SFmul (prec fmt) (emax fmt) (sf x) (sf y)).

Definition fdiv {fmt} (x y : fp fmt) : fp fmt :=
  FP (SFdiv (prec fmt) (emax fmt) (sf x) (sf y)).

Definition fadd {fmt} (x y : fp fmt) : fp fmt :=
  FP (SFadd (prec fmt) (emax fmt) (sf x) (sf y)).

(** Conversion of an integer (C++ [int] to a floating type). *)
Definition of_Z (fmt : format) (n : Z) : fp fmt :=
  FP (binary_normalize (prec fmt) (emax fmt) n 0 false).

(** Conversion between floating formats: the finite value is rounded
    into the target format, zeros, infinities and NaN are kept. *)
Definition convert {a : format} (b : format) (x : fp a) : fp b :=
  match sf x with
  | S754_finite s m e => FP (binary_round (prec b) (emax b) s m e)
  | v => FP v
  end.

(** The literal [1.0]. *)
Definition one (fmt : format) : fp fmt := of_Z fmt 1.

Definition pinf (fmt : format) : fp fmt := FP (S754_infinity false).

(** The rational value [m * 2^e] of two finite numbers compared exactly,
    whatever the formats they are written in. *)
Definition scaled (m : positive) (e base : Z) : Z :=
  Z.shiftl (Zpos m) (e - base).

Definition same_value {a b} (x : fp a) (y : fp b) : bool :=
  match sf x, sf y with
  | S754_zero _, S754_zero _ => true
  | S754_finite s m e, S754_finite s' m' e' =>
      Bool.eqb s s' && (scaled m e (Z.min e e') =? scaled m' e' (Z.min e e'))
  | _, _ => false
  end.

(** Every finite number of format [a] is a number of format [b]: [b] has
    no fewer significand bits, no smaller largest exponent and no larger
    smallest exponent (and its largest exponent is at least 2, as in every
    IEEE format). *)
Definition widens (a b : format) : bool :=
  (prec a <=? prec b) && (emax a <=? emax b)
  && (emin (prec b) (emax b) <=? emin (prec a) (emax a))
  && (2 <=? emax b).

(** Unary minus. *)
Definition fopp {fmt} (x : fp fmt) : fp fmt := FP (SFopp (sf x)).

(** [ldexp(x, e)]: [x] times [2^e], rounded once into the format. *)
Definition fldexp {fmt} (x : fp fmt) (e : Z) : fp fmt :=
  FP (SFldexp (prec fmt) (emax fmt) (sf x) e).

Definition is_nan {fmt} (x : fp fmt) : bool :=
  match sf x with
  | S754_nan => true
  | _ => false
  end.

End IEEE754.

Import IEEE754.

(** ** The C++ scalar types *)

(** Modelled from the spec: [platform::float16] is declared outside this
    header.  It is the 16-bit floating-point representation of the
    glossary, taken here as IEEE-754 binary16 with correctly rounded
    multiplication and conversions. *)
Definition float16 : Set := fp binary16.

(** [float] and [double] are IEEE-754 binary32 and binary64. *)
Definition float : Set := fp binary32.
Definition double : Set := fp binary64.

(** A C++ [int], as the integer it denotes. *)
Definition int : Set := Z.

(** [const T* x]: the elements stored from the address [x] onwards.
    [x[i]] reads the [i]-th of them; reading past the last one has no
    defined result. *)
Definition pointer (T : Type) : Type := list T.

Definition index {T : Type} (x : pointer T) (i : nat) : option T :=
  nth_error x i.

(** What a template asks of its type arguments. *)

(** [static_cast<B>(a)] for [a] of type [A]. *)
Class StaticCast (A B : Type) := static_cast : A -> B.

(** [operator*] on [T]. *)
Class Mul (T : Type) := mul : T -> T -> T.

(** Between floating types a cast to the same type is the identity and a
    cast to another one converts the value. *)
#[export] Instance fp_cast (a b : format) : StaticCast (fp a) (fp b) :=
  fun x => if format_eqb a b then FP (sf x) else convert b x.

#[export] Instance fp_mul (fmt : format) : Mul (fp fmt) := fmul.

(** The math routines the header calls and does not define:
    [::Eigen::numext::exp] and [::Eigen::numext::log] on [float16],
    [expf] and [logf], [exp] and [log]. *)
Class MathLibrary : Type := {
  numext_exp : float16 -> float16;
  numext_log : float16 -> float16;
  expf : float -> float;
  logf : float -> float;
  exp : double -> double;
  log : double -> double
}.

(** ** namespace details: the overloads of [ExpFunctor] and [LogFunctor]

    An overloaded name is a class indexed by the parameter type and each
    declaration of the header is one instance, chosen by the type of the
    argument when a call is elaborated. *)

Class ExpFunctorOverload (T : Type) := ExpFunctor : T -> T.
Class LogFunctorOverload (T : Type) := LogFunctor : T -> T.

Section details.
Context {libm : MathLibrary}.

#[export] Instance ExpFunctor_float16 : ExpFunctorOverload float16 :=
  fun x => numext_exp x.
#[export] Instance ExpFunctor_float : ExpFunctorOverload float :=
  fun x => expf x.
#[export] Instance ExpFunctor_double : ExpFunctorOverload double :=
  fun x => exp x.
#[export] Instance LogFunctor_float16 : LogFunctorOverload float16 :=
  fun x => numext_log x.
#[export] Instance LogFunctor_float : LogFunctorOverload float :=
  fun x => logf x.
#[export] Instance LogFunctor_double : LogFunctorOverload double :=
  fun x => log x.
End details.

(** ** ExpLogitTransformer *)

(** The struct has no data member. *)
Record ExpLogitTransformer (Tx Ty : Type) : Set := Build_ExpLogitTransformer { }.
Arguments Build_ExpLogitTransformer {Tx Ty}.

(** [explicit ExpLogitTransformer(int n) {}] *)
Definition ExpLogitTransformer_new {Tx Ty : Type} (n : int)
  : ExpLogitTransformer Tx Ty := Build_ExpLogitTransformer.

Section ExpLogitTransformer_call.
Context {Tx Ty : Type} {E : ExpFunctorOverload Tx} {C : StaticCast Tx Ty}.

(** [Ty operator()(const Tx* x) const] *)
Definition ExpLogitTransformer_call_ptr
    (self : ExpLogitTransformer Tx Ty) (x : pointer Tx) : option Ty :=
  match index x 0 with
  | Some x0 => Some (static_cast (ExpFunctor x0))
  | None => None
  end.

(** [Ty operator()(const Tx& x) const] *)
Definition ExpLogitTransformer_call
    (self : ExpLogitTransformer Tx Ty) (x : Tx) : Ty :=
  static_cast (ExpFunctor x).
End ExpLogitTransformer_call.

(** ** IdentityFunctor *)

Record IdentityFunctor (Tx Ty : Type) : Set := Build_IdentityFunctor { }.
Arguments Build_IdentityFunctor {Tx Ty}.

(** [explicit IdentityFunctor(int n) {}] *)
Definition IdentityFunctor_new {Tx Ty : Type} (n : int)
  : IdentityFunctor Tx Ty := Build_IdentityFunctor.

Section IdentityFunctor_call.
Context {Tx Ty : Type} {C : StaticCast Tx Ty}.

(** [Ty operator()(const Tx* x) const] *)
Definition IdentityFunctor_call_ptr
    (self : IdentityFunctor Tx Ty) (x : pointer Tx) : option Ty :=
  match index x 0 with
  | Some x0 => Some (static_cast x0)
  | None => None
  end.

(** [Ty operator()(const Tx& x) const] *)
Definition IdentityFunctor_call
    (self : IdentityFunctor Tx Ty) (x : Tx) : Ty :=
  static_cast x.
End IdentityFunctor_call.

(** ** DivideFunctor *)

Record DivideFunctor (T : Type) : Type := Build_DivideFunctor { n_inv : T }.
Arguments Build_DivideFunctor {T} _.
Arguments n_inv {T} _.

(** [explicit DivideFunctor(int n) : n_inv((T)(1.0 / n)) {}]: [n] is
    converted to [double], the quotient is a [double], the cast takes it
    to [T]. *)
Definition DivideFunctor_new {T : Type} {C : StaticCast double T} (n : int)
  : DivideFunctor T :=
  Build_DivideFunctor (static_cast (fdiv (one binary64) (of_Z binary64 n))).

Section DivideFunctor_call.
Context {T : Type} {M : Mul T}.

(** [T operator()(const T* x) const] *)
Definition DivideFunctor_call_ptr
    (self : DivideFunctor T) (x : pointer T) : option T :=
  match index x 0 with
  | Some x0 => Some (mul x0 (n_inv self))
  | None => None
  end.

(** [T operator()(const T& x) const] *)
Definition DivideFunctor_call (self : DivideFunctor T) (x : T) : T :=
  mul x (n_inv self).

(** One invocation as a step on the object: the member function is
    [const] and assigns nothing, so the object comes back as it was,
    next to the result. *)
Definition DivideFunctor_step (self : DivideFunctor T) (x : T)
  : DivideFunctor T * T :=
  (self, DivideFunctor_call self x).

(** The object invoked on the elements of [xs], one after the other. *)
Fixpoint DivideFunctor_run (self : DivideFunctor T) (xs : list T)
  : DivideFunctor T * list T :=
  match xs with
  | [] => (self, [])
  | x :: rest =>
      let '(self1, y) := DivideFunctor_step self x in
      let '(self2, ys) := DivideFunctor_run self1 rest in
      (self2, y :: ys)
  end.
End DivideFunctor_call.

(** ** Template heads and overload declarations

    The types the declarations of the header mention, as a table: which
    template parameters a functor has, what its call operator takes and
    returns, and which functions namespace [details] declares. *)

Inductive scalar_type : Set := float16_t | float_t | double_t.

Definition scalar_type_eqb (a b : scalar_type) : bool :=
  match a, b with
  | float16_t, float16_t | float_t, float_t | double_t, double_t => true
  | _, _ => false
  end.

Definition format_of (t : scalar_type) : format :=
  match t with
  | float16_t => binary16
  | float_t => binary32
  | double_t => binary64
  end.

Inductive template_parameter : Set :=
  | typename                      (* typename T *)
  | typename_default (i : nat).   (* typename T = the i-th parameter *)

Inductive functor_template : Set :=
  | ExpLogitTransformer_template
  | IdentityFunctor_template
  | DivideFunctor_template.

(** [template <typename Tx, typename Ty = Tx>] for the first two,
    [template <typename T>] for the third. *)
Definition template_head (f : functor_template) : list template_parameter :=
  match f with
  | ExpLogitTransformer_template => [typename; typename_default 0]
  | IdentityFunctor_template => [typename; typename_default 0]
  | DivideFunctor_template => [typename]
  end.

(** Explicit template arguments fill the parameters from the left; a
    parameter left without an argument takes its default; a parameter with
    neither, or an argument without parameter, is ill-formed. *)
Fixpoint bind_arguments (params : list template_parameter)
    (args bound : list scalar_type) : option (list scalar_type) :=
  match params, args with
  | [], [] => Some bound
  | [], _ :: _ => None
  | _ :: ps, a :: rest => bind_arguments ps rest (bound ++ [a])
  | typename :: _, [] => None
  | typename_default i :: ps, [] =>
      match nth_error bound i with
      | Some a => bind_arguments ps [] (bound ++ [a])
      | None => None
      end
  end.

(** Parameter type and return type of [operator()] once the template
    parameters are bound. *)
Definition call_signature (f : functor_template) (bound : list scalar_type)
  : option (scalar_type * scalar_type) :=
  match f, bound with
  | ExpLogitTransformer_template, [Tx; Ty] => Some (Tx, Ty)
  | IdentityFunctor_template, [Tx; Ty] => Some (Tx, Ty)
  | DivideFunctor_template, [T] => Some (T, T)
  | _, _ => None
  end.

Definition instantiate (f : functor_template) (args : list scalar_type)
  : option (scalar_type * scalar_type) :=
  match bind_arguments (template_head f) args [] with
  | Some bound => call_signature f bound
  | None => None
  end.

Inductive overloaded_name : Set := ExpFunctor_name | LogFunctor_name.

Definition overloaded_name_eqb (a b : overloaded_name) : bool :=
  match a, b with
  | ExpFunctor_name, ExpFunctor_name | LogFunctor_name, LogFunctor_name => true
  | _, _ => false
  end.

Inductive routine : Set :=
  | Eigen_numext_exp | libm_expf | libm_exp
  | Eigen_numext_log | libm_logf | libm_log.

Record declaration : Set := Declaration {
  decl_name : overloaded_name;
  decl_param : scalar_type;
  decl_return : scalar_type;
  decl_body : routine
}.

(** The six functions of namespace [details], in the order of the header. *)
Definition details_declarations : list declaration :=
  [ Declaration ExpFunctor_name float16_t float16_t Eigen_numext_exp;
    Declaration ExpFunctor_name float_t float_t libm_expf;
    Declaration ExpFunctor_name double_t double_t libm_exp;
    Declaration LogFunctor_name float16_t float16_t Eigen_numext_log;
    Declaration LogFunctor_name float_t float_t libm_logf;
    Declaration LogFunctor_name double_t double_t libm_log ].

(** The declarations a call [f(x)] with [x] of type [arg] matches without
    a conversion of the argument. *)
Definition overload_candidates (f : overloaded_name) (arg : scalar_type)
  : list declaration :=
  filter (fun d => overloaded_name_eqb f (decl_name d)
                   && scalar_type_eqb arg (decl_param d))
         details_declarations.

(** Modelled from the spec: the summing reduction that feeds
    [DivideFunctor] lives outside this header.  It is taken as the
    floating-point additions of the elements, from the left, starting at
    zero. *)
Definition sum {fmt : format} (xs : list (fp fmt)) : fp fmt :=
  fold_left fadd xs (of_Z fmt 0).

(** The number of stored significand bits of a type, one less than its
    precision. *)
Definition frac_bits (t : scalar_type) : positive :=
  match t with
  | float16_t => 10
  | float_t => 23
  | double_t => 52
  end%positive.

(** The largest [k] for which [2^k] is an [int] and [2^(-k)] a normal
    number of the type. *)
Definition max_pow2_count (t : scalar_type) : Z :=
  match t with
  | float16_t => 14
  | float_t => 30
  | double_t => 30
  end.

(** * Properties *)

(** ** Rounding of exactly representable numbers *)

Section Rounding.
Variables prec emax : Z.

Lemma iter_pos_iter {A : Type} (f : A -> A) (p : positive) :
  forall x, iter_pos f p x = Pos.iter f x p.
Proof.
  induction p as [p IH | p IH | ]; intros x; simpl.
  - rewrite !IH, <- !Pos.iter_swap. reflexivity.
  - rewrite !IH. reflexivity.
  - reflexivity.
Qed.

Lemma digits2_pos_shift (m k : positive) :
  digits2_pos (Pos.iter xO m k) = (digits2_pos m + k)%positive.
Proof.
  induction k as [ | k IH] using Pos.peano_ind.
  - simpl. lia.
  - rewrite Pos.iter_succ. simpl. rewrite IH. lia.
Qed.

Lemma shr_1_shift (m k : positive) :
  Pos.iter shr_1 (Build_shr_record (Zpos (Pos.iter xO m k)) false false) k
  = Build_shr_record (Zpos m) false false.
Proof.
  induction k as [ | k IH] using Pos.peano_ind.
  - reflexivity.
  - rewrite Pos.iter_succ_r, Pos.iter_succ. simpl. exact IH.
Qed.

(** A mantissa that is canonical at exponent [e] is a fixed point of
    rounding. *)
Lemma binary_round_aux_canonical (s : bool) (m : positive) (e : Z) :
  bounded prec emax m e = true ->
  binary_round_aux prec emax s (Zpos m) e loc_Exact = S754_finite s m e.
Proof.
  unfold bounded, canonical_mantissa. intros H.
  apply andb_true_iff in H. destruct H as [Hc He].
  apply Z.eqb_eq in Hc.
  unfold binary_round_aux, shr_fexp. cbn [Zdigits2].
  rewrite Hc, Z.sub_diag.
  cbn [shr shr_record_of_loc shr_m loc_of_shr_record round_nearest_even
       Zdigits2].
  rewrite Hc, Z.sub_diag. cbn [shr shr_m]. rewrite He. reflexivity.
Qed.

(** The same mantissa shifted left by [k] bits, at exponent [e - k],
    rounds back to it: the [k] low bits dropped are zeros. *)
Lemma binary_round_aux_shift (s : bool) (m k : positive) (e : Z) :
  bounded prec emax m e = true ->
  binary_round_aux prec emax s (Zpos (Pos.iter xO m k)) (e - Zpos k) loc_Exact
  = S754_finite s m e.
Proof.
  unfold bounded, canonical_mantissa. intros H.
  apply andb_true_iff in H. destruct H as [Hc He].
  apply Z.eqb_eq in Hc.
  unfold binary_round_aux, shr_fexp. cbn [Zdigits2].
  rewrite digits2_pos_shift.
  replace (Zpos (digits2_pos m + k) + (e - Zpos k))
    with (Zpos (digits2_pos m) + e) by lia.
  rewrite Hc.
  replace (e - (e - Zpos k)) with (Zpos k) by lia.
  cbn [shr shr_record_of_loc].
  rewrite iter_pos_iter, shr_1_shift.
  cbn [shr_m loc_of_shr_record round_nearest_even Zdigits2].
  replace (e - Zpos k + Zpos k) with e by lia.
  rewrite Hc, Z.sub_diag. cbn [shr shr_m]. rewrite He. reflexivity.
Qed.
End Rounding.

Section Exactness.
Variables prec emax : Z.

Lemma mul_pow2 (m k : positive) :
  (m * Pos.iter xO 1 k)%positive = Pos.iter xO m k.
Proof.
  induction k as [ | k IH] using Pos.peano_ind.
  - simpl. lia.
  - rewrite !Pos.iter_succ, Pos.mul_xO_r, IH. reflexivity.
Qed.

(** Multiplying by one, written [2^k * 2^(-k)], returns the other
    factor as it is: zeros, infinities and NaN included. *)
Lemma SFmul_one_r (k : positive) (x : spec_float) :
  valid_binary prec emax x = true ->
  SFmul prec emax x (S754_finite false (Pos.iter xO 1%positive k) (Zneg k)) = x.
Proof.
  destruct x as [s | s | | s m e]; intros Hx; simpl.
  - rewrite xorb_false_r. reflexivity.
  - rewrite xorb_false_r. reflexivity.
  - reflexivity.
  - rewrite xorb_false_r, mul_pow2.
    change (e + Zneg k) with (e - Zpos k).
    apply binary_round_aux_shift. exact Hx.
Qed.

Lemma pos_shiftl (m d : positive) :
  Zpos (Pos.iter xO m d) = Z.shiftl (Zpos m) (Zpos d).
Proof.
  unfold Z.shiftl.
  apply (Pos.iter_swap_gen _ _ Zpos xO (Z.mul 2)). reflexivity.
Qed.
End Exactness.

Section Widening.
Variables prec1 emax1 prec2 emax2 : Z.
Hypothesis Hprec : prec1 <= prec2.
Hypothesis Hemax : emax1 <= emax2.
Hypothesis Hemin : emin prec2 emax2 <= emin prec1 emax1.
Hypothesis Hemax2 : 2 <= emax2.

(** Rounding a number of the narrow format into the wide one only
    rewrites it with a longer mantissa and a smaller exponent. *)
Lemma binary_round_widen (s : bool) (m : positive) (e : Z) :
  bounded prec1 emax1 m e = true ->
  exists m' e',
    binary_round prec2 emax2 s m e = S754_finite s m' e'
    /\ e' <= e /\ Zpos m' = Z.shiftl (Zpos m) (e - e').
Proof.
  unfold bounded, canonical_mantissa. intros H.
  apply andb_true_iff in H. destruct H as [Hc He].
  apply Z.eqb_eq in Hc. apply Z.leb_le in He.
  unfold binary_round.
  set (dg := digits2_pos m) in *.
  assert (Hfe : fexp prec2 emax2 (Zpos dg + e) <= e
                /\ fexp prec2 emax2 (Zpos dg + e) <= emax2 - prec2).
  { unfold fexp, emin in *. lia. }
  destruct Hfe as [Hfe1 Hfe2].
  unfold shl_align.
  destruct (fexp prec2 emax2 (Zpos dg + e) - e) as [ | d | d] eqn:Hd.
  - assert (Heq : fexp prec2 emax2 (Zpos dg + e) = e) by lia.
    exists m, e. split; [ | split; [lia | ] ].
    + apply binary_round_aux_canonical.
      unfold bounded, canonical_mantissa. fold dg.
      rewrite Heq, Z.eqb_refl. cbn [andb]. apply Z.leb_le. lia.
    + rewrite Z.sub_diag. reflexivity.
  - lia.
  - exists (Pos.iter xO m d), (fexp prec2 emax2 (Zpos dg + e)).
    split; [ | split; [lia | ] ].
    + apply binary_round_aux_canonical.
      unfold bounded, canonical_mantissa.
      rewrite digits2_pos_shift. fold dg.
      replace (Zpos (dg + d) + fexp prec2 emax2 (Zpos dg + e))
        with (Zpos dg + e) by lia.
      rewrite Z.eqb_refl. cbn [andb]. apply Z.leb_le. exact Hfe2.
    + replace (e - fexp prec2 emax2 (Zpos dg + e)) with (Zpos d) by lia.
      apply pos_shiftl.
Qed.
End Widening.

(** ** Casts and constants *)

Lemma format_eqb_refl (a : format) : format_eqb a a = true.
Proof. unfold format_eqb. rewrite !Z.eqb_refl. reflexivity. Qed.

(** [static_cast<T>] of a [T] is the identity. *)
Lemma static_cast_same (fmt : format) (x : fp fmt) :
  static_cast (A := fp fmt) (B := fp fmt) x = x.
Proof.
  unfold static_cast, fp_cast. rewrite format_eqb_refl.
  destruct x. reflexivity.
Qed.

Lemma same_value_refl (a b : format) (x : fp a) :
  is_finite x = true -> same_value (b := b) x (FP (sf x)) = true.
Proof.
  unfold is_finite, same_value. simpl.
  destruct (sf x) as [s | s | | s m e]; intros H; try discriminate.
  - reflexivity.
  - rewrite Bool.eqb_reflx, Z.eqb_refl. reflexivity.
Qed.

Lemma same_value_sym (a b : format) (x : fp a) (y : fp b) :
  same_value x y = same_value y x.
Proof.
  unfold same_value.
  destruct (sf x) as [s | s | | s m e], (sf y) as [s' | s' | | s' m' e'];
    try reflexivity.
  rewrite (Z.min_comm e' e), (Z.eqb_sym (scaled m' e' _)).
  destruct s, s'; reflexivity.
Qed.

(** A cast to a format that holds every number of the source format
    keeps the value of a finite number. *)
Lemma static_cast_widen (a b : format) (x : fp a) :
  widens a b = true -> valid x = true -> is_finite x = true ->
  same_value (static_cast (B := fp b) x) x = true.
Proof.
  unfold widens. intros Hw Hv Hf.
  apply andb_true_iff in Hw. destruct Hw as [Hw H4].
  apply andb_true_iff in Hw. destruct Hw as [Hw H3].
  apply andb_true_iff in Hw. destruct Hw as [H1 H2].
  apply Z.leb_le in H1, H2, H3, H4.
  unfold static_cast, fp_cast.
  destruct (format_eqb a b).
  - rewrite same_value_sym. apply same_value_refl. exact Hf.
  - destruct x as [[s | s | | s m e]]; try discriminate Hf.
    + reflexivity.
    + unfold valid in Hv. simpl in Hv. unfold convert. cbn [sf].
      destruct (binary_round_widen _ _ _ _ H1 H2 H3 H4 s m e Hv)
        as (m' & e' & Hr & Hle & Hm).
      rewrite Hr. unfold same_value. cbn [sf].
      rewrite Bool.eqb_reflx, Z.min_l by exact Hle.
      unfold scaled. rewrite Z.sub_diag, <- Hm. simpl.
      apply Pos.eqb_refl.
Qed.

(** The literal [1.0] of each type is [2^k * 2^(-k)] for [k] one less
    than the precision. *)
Lemma one_is_pow2 (t : scalar_type) :
  exists k, sf (one (format_of t))
            = S754_finite false (Pos.iter xO 1%positive k) (Zneg k).
Proof.
  destruct t.
  - exists 10%positive. reflexivity.
  - exists 23%positive. reflexivity.
  - exists 52%positive. reflexivity.
Qed.

Lemma fmul_one_r (t : scalar_type) (x : fp (format_of t)) :
  valid x = true -> fmul x (one (format_of t)) = x.
Proof.
  intros Hv. destruct (one_is_pow2 t) as [k Hk].
  unfold fmul. rewrite Hk, SFmul_one_r by exact Hv.
  destruct x. reflexivity.
Qed.

(** Times plus infinity: NaN for NaN and for a zero, else the infinity of
    the sign of the other factor. *)
Lemma fmul_pinf_r (fmt : format) (x : fp fmt) :
  sf (fmul x (pinf fmt))
  = match sf x with
    | S754_nan | S754_zero _ => S754_nan
    | S754_infinity s | S754_finite s _ _ => S754_infinity s
    end.
Proof.
  unfold fmul, pinf. cbn [sf].
  destruct (sf x) as [s | s | | s m e]; simpl;
    rewrite ?xorb_false_r; reflexivity.
Qed.

(** ** The functors on concrete inputs *)

Example DivideFunctor_float_4_of_20 :
  DivideFunctor_call (T := float) (DivideFunctor_new 4) (of_Z binary32 20)
  = of_Z binary32 5.
Proof. reflexivity. Qed.

Example DivideFunctor_ptr_reads_head :
  DivideFunctor_call_ptr (T := double) (DivideFunctor_new 2)
    [of_Z binary64 6; of_Z binary64 100]
  = Some (of_Z binary64 3).
Proof. reflexivity. Qed.

Example DivideFunctor_ptr_past_the_end :
  DivideFunctor_call_ptr (T := double) (DivideFunctor_new 2) [] = None.
Proof. reflexivity. Qed.

Example DivideFunctor_zero_of_minus_3 :
  DivideFunctor_call (T := float) (DivideFunctor_new 0) (of_Z binary32 (-3))
  = FP (S754_infinity true).
Proof. reflexivity. Qed.

Example IdentityFunctor_float_to_double :
  IdentityFunctor_call (Tx := float) (Ty := double) (IdentityFunctor_new 0)
    (fdiv (one binary32) (of_Z binary32 10))
  = FP (S754_finite false 7205759511166976 (-56)).
Proof. reflexivity. Qed.

Example IdentityFunctor_double_to_float_overflows :
  IdentityFunctor_call (Tx := double) (Ty := float) (IdentityFunctor_new 0)
    (FP (S754_finite false 4503599627370496 200))
  = pinf binary32.
Proof. reflexivity. Qed.

Example ExpLogitTransformer_default_output :
  instantiate ExpLogitTransformer_template [float16_t]
  = Some (float16_t, float16_t).
Proof. reflexivity. Qed.

Example IdentityFunctor_three_arguments :
  instantiate IdentityFunctor_template [float_t; double_t; double_t] = None.
Proof. reflexivity. Qed.

(** ** The template heads and the dispatch functions *)

(** C1, as the spec states it, fails: [DivideFunctor] has the single
    template parameter [T], so [DivideFunctor<float, double>] is not an
    instantiation with output [double]. *)
Lemma DivideFunctor_output_not_overridable :
  ~ (instantiate DivideFunctor_template [float_t] = Some (float_t, float_t)
     /\ instantiate DivideFunctor_template [float_t; double_t]
        = Some (float_t, double_t)).
Proof. intros [_ H]. discriminate H. Qed.

(** C1, amended: for [ExpLogitTransformer] and [IdentityFunctor] the
    output type is the input type when only one template argument is
    given and is the second argument when two are given.  [DivideFunctor]
    takes one type, which is input and output, and accepts no second one.
    Every function of namespace [details] returns the type of its
    parameter. *)
Theorem output_type_default (Tx Ty : scalar_type) (args : list scalar_type) :
  (instantiate ExpLogitTransformer_template [Tx] = Some (Tx, Tx)
   /\ instantiate ExpLogitTransformer_template [Tx; Ty] = Some (Tx, Ty))
  /\ (instantiate IdentityFunctor_template [Tx] = Some (Tx, Tx)
      /\ instantiate IdentityFunctor_template [Tx; Ty] = Some (Tx, Ty))
  /\ instantiate DivideFunctor_template args
     = match args with
       | [T] => Some (T, T)
       | _ => None
       end
  /\ map decl_return details_declarations
     = map decl_param details_declarations.
Proof.
  repeat split.
  destruct args as [ | T [ | U rest]]; reflexivity.
Qed.

(** C3: namespace [details] declares six functions, and a call of
    [ExpFunctor] or [LogFunctor] on an argument of type [t] has exactly
    one candidate among them, the one whose parameter type is [t]; its
    body is the routine of that type.  Which routine runs is fixed by the
    type of the argument alone: whatever the library routines are, each
    overload is its routine on every value. *)
Theorem dispatch_by_argument_type
    (libm : MathLibrary) (f : overloaded_name) (t : scalar_type) :
  length details_declarations = 6%nat
  /\ overload_candidates f t
     = [ Declaration f t t
           match f, t with
           | ExpFunctor_name, float16_t => Eigen_numext_exp
           | ExpFunctor_name, float_t => libm_expf
           | ExpFunctor_name, double_t => libm_exp
           | LogFunctor_name, float16_t => Eigen_numext_log
           | LogFunctor_name, float_t => libm_logf
           | LogFunctor_name, double_t => libm_log
           end ]
  /\ (forall x : float16, ExpFunctor x = numext_exp x)
  /\ (forall x : float, ExpFunctor x = expf x)
  /\ (forall x : double, ExpFunctor x = exp x)
  /\ (forall x : float16, LogFunctor x = numext_log x)
  /\ (forall x : float, LogFunctor x = logf x)
  /\ (forall x : double, LogFunctor x = log x).
Proof.
  split; [reflexivity | ].
  split; [destruct f, t; reflexivity | ].
  repeat split.
Qed.

(** ** ExpLogitTransformer and IdentityFunctor *)

(** C2: for every count [n] and every output type [Ty],
    [ExpLogitTransformer<Tx, Ty>(n)] applied to [x] is the cast to [Ty] of
    [Eigen::numext::exp(x)] for [Tx = float16], of [expf(x)] for
    [Tx = float] and of [exp(x)] for [Tx = double]. *)
Theorem ExpLogitTransformer_exp
    (libm : MathLibrary) (Ty : Type)
    (C16 : StaticCast float16 Ty) (C32 : StaticCast float Ty)
    (C64 : StaticCast double Ty) (n : int) :
  (forall x : float16,
      ExpLogitTransformer_call (Ty := Ty) (ExpLogitTransformer_new n) x
      = static_cast (numext_exp x))
  /\ (forall x : float,
      ExpLogitTransformer_call (Ty := Ty) (ExpLogitTransformer_new n) x
      = static_cast (expf x))
  /\ (forall x : double,
      ExpLogitTransformer_call (Ty := Ty) (ExpLogitTransformer_new n) x
      = static_cast (exp x)).
Proof. repeat split. Qed.

(** C5: on a sequence that starts with [x], the pointer form of each of
    the three functors returns what the scalar form returns on [x]; the
    elements after the first do not count, any other tail gives the same
    result. *)
Theorem pointer_form_reads_first
    (Tx Ty : Type) (E : ExpFunctorOverload Tx) (C : StaticCast Tx Ty)
    (D : StaticCast double Tx) (M : Mul Tx)
    (n : int) (x : Tx) (rest rest' : pointer Tx) :
  (ExpLogitTransformer_call_ptr (Ty := Ty) (ExpLogitTransformer_new n) (x :: rest)
   = Some (ExpLogitTransformer_call (ExpLogitTransformer_new n) x)
   /\ ExpLogitTransformer_call_ptr (Ty := Ty) (ExpLogitTransformer_new n) (x :: rest)
      = ExpLogitTransformer_call_ptr (ExpLogitTransformer_new n) (x :: rest'))
  /\ (IdentityFunctor_call_ptr (Ty := Ty) (IdentityFunctor_new n) (x :: rest)
      = Some (IdentityFunctor_call (IdentityFunctor_new n) x)
      /\ IdentityFunctor_call_ptr (Ty := Ty) (IdentityFunctor_new n) (x :: rest)
         = IdentityFunctor_call_ptr (IdentityFunctor_new n) (x :: rest'))
  /\ (DivideFunctor_call_ptr (DivideFunctor_new n) (x :: rest)
      = Some (DivideFunctor_call (DivideFunctor_new n) x)
      /\ DivideFunctor_call_ptr (DivideFunctor_new n) (x :: rest)
         = DivideFunctor_call_ptr (DivideFunctor_new n) (x :: rest')).
Proof.
  unfold ExpLogitTransformer_call_ptr, IdentityFunctor_call_ptr,
    DivideFunctor_call_ptr, index.
  cbn [nth_error]. repeat split.
Qed.

(** C7: [ExpLogitTransformer] and [IdentityFunctor] keep nothing of the
    count: the objects built from [n1] and from [n2] are equal, and so are
    their results on every scalar and on every sequence. *)
Theorem count_is_ignored
    (Tx Ty : Type) (E : ExpFunctorOverload Tx) (C : StaticCast Tx Ty)
    (n1 n2 : int) (x : Tx) (xs : pointer Tx) :
  (ExpLogitTransformer_new (Tx := Tx) (Ty := Ty) n1 = ExpLogitTransformer_new n2
   /\ ExpLogitTransformer_call (Ty := Ty) (ExpLogitTransformer_new n1) x
      = ExpLogitTransformer_call (ExpLogitTransformer_new n2) x
   /\ ExpLogitTransformer_call_ptr (Ty := Ty) (ExpLogitTransformer_new n1) xs
      = ExpLogitTransformer_call_ptr (ExpLogitTransformer_new n2) xs)
  /\ (IdentityFunctor_new (Tx := Tx) (Ty := Ty) n1 = IdentityFunctor_new n2
      /\ IdentityFunctor_call (Ty := Ty) (IdentityFunctor_new n1) x
         = IdentityFunctor_call (IdentityFunctor_new n2) x
      /\ IdentityFunctor_call_ptr (Ty := Ty) (IdentityFunctor_new n1) xs
         = IdentityFunctor_call_ptr (IdentityFunctor_new n2) xs).
Proof. repeat split. Qed.

(** C6, as the spec states it, fails for a narrowing output type:
    [IdentityFunctor<double, float>] applied to the [double] nearest to
    one tenth returns a [float] of another value. *)
Lemma IdentityFunctor_narrowing_changes_value :
  valid (fdiv (one binary64) (of_Z binary64 10)) = true
  /\ is_finite (fdiv (one binary64) (of_Z binary64 10)) = true
  /\ same_value
       (IdentityFunctor_call (Tx := double) (Ty := float)
          (IdentityFunctor_new 10) (fdiv (one binary64) (of_Z binary64 10)))
       (fdiv (one binary64) (of_Z binary64 10))
     = false.
Proof. vm_compute. repeat split. Qed.

(** C6, amended: for every count [n], [IdentityFunctor<Tx, Ty>(n)] applied
    to [x] returns [static_cast<Ty>(x)]; between different floating types
    that is [x] rounded into [Ty].  When [Ty] is [Tx] the result is the
    input itself.  When [Ty] holds every number of [Tx] (the same type, or
    a wider one: [float16] to [float] or [double], [float] to [double])
    the result has the value of a finite [x]. *)
Theorem IdentityFunctor_cast
    (a b : format) (n : int) (x : fp a) (y : fp b) :
  IdentityFunctor_call (Ty := fp b) (IdentityFunctor_new n) x = static_cast x
  /\ IdentityFunctor_call (Ty := fp b) (IdentityFunctor_new n) y = y
  /\ (format_eqb a b = false ->
      IdentityFunctor_call (Ty := fp b) (IdentityFunctor_new n) x
      = convert b x)
  /\ (widens a b = true -> valid x = true -> is_finite x = true ->
      same_value
        (IdentityFunctor_call (Ty := fp b) (IdentityFunctor_new n) x) x
      = true).
Proof.
  unfold IdentityFunctor_call.
  split; [reflexivity | split; [apply static_cast_same | split] ].
  - intros Hne. unfold static_cast, fp_cast. rewrite Hne. reflexivity.
  - intros Hw Hv Hf. apply static_cast_widen; assumption.
Qed.

Lemma IdentityFunctor_cast_witness :
  (format_eqb binary32 binary64 = false
   /\ widens binary32 binary64 = true
   /\ valid (of_Z binary32 3) = true
   /\ is_finite (of_Z binary32 3) = true)
  /\ IdentityFunctor_call (Tx := float) (Ty := double)
       (IdentityFunctor_new 7) (of_Z binary32 3)
     = convert binary64 (of_Z binary32 3)
  /\ same_value
       (IdentityFunctor_call (Tx := float) (Ty := double)
          (IdentityFunctor_new 7) (of_Z binary32 3))
       (of_Z binary32 3) = true
  /\ IdentityFunctor_call (Tx := double) (Ty := double)
       (IdentityFunctor_new 7) (of_Z binary64 5)
     = of_Z binary64 5.
Proof.
  split; [repeat split | ].
  destruct (IdentityFunctor_cast binary32 binary64 7 (of_Z binary32 3)
              (of_Z binary64 5)) as (_ & Hsame & Hconv & Hval).
  split; [apply Hconv; reflexivity | ].
  split; [apply Hval; reflexivity | exact Hsame].
Defined.

(** ** DivideFunctor *)

Lemma DivideFunctor_run_const
    (T : Type) (M : Mul T) (self : DivideFunctor T) (xs : list T) :
  DivideFunctor_run self xs
  = (self, map (fun x => mul x (n_inv self)) xs).
Proof.
  induction xs as [ | x rest IH]; simpl.
  - reflexivity.
  - rewrite IH. reflexivity.
Qed.

(** C4: [DivideFunctor<T>(n)] holds in [n_inv] the quotient [1.0 / n]
    cast to [T]; an invocation on [x] returns the product of [x] and the
    stored [n_inv], and after any number of invocations the object is the
    one that was constructed, each result being the product of its
    argument and that same reciprocal. *)
Theorem DivideFunctor_stores_reciprocal
    (T : Type) (C : StaticCast double T) (M : Mul T)
    (n : int) (x : T) (xs : list T) :
  n_inv (DivideFunctor_new n)
  = static_cast (fdiv (one binary64) (of_Z binary64 n))
  /\ DivideFunctor_call (DivideFunctor_new n) x
     = mul x (n_inv (DivideFunctor_new n))
  /\ DivideFunctor_step (DivideFunctor_new n) x
     = (DivideFunctor_new n,
        mul x (static_cast (fdiv (one binary64) (of_Z binary64 n))))
  /\ DivideFunctor_run (DivideFunctor_new n) xs
     = (DivideFunctor_new n,
        map (fun x => mul x (static_cast (fdiv (one binary64) (of_Z binary64 n))))
            xs).
Proof.
  repeat split. apply DivideFunctor_run_const.
Qed.

Lemma n_inv_zero (t : scalar_type) :
  n_inv (DivideFunctor_new (T := fp (format_of t)) 0) = pinf (format_of t).
Proof. destruct t; reflexivity. Qed.

(** C8: [DivideFunctor<T>(0)] is constructed like any other: the integer
    zero becomes the [double] [+0.0], [1.0 / +0.0] is plus infinity and
    stays plus infinity in [T].  Applied to [x] it returns [x] times plus
    infinity: NaN when [x] is NaN or a zero, and otherwise the infinity of
    the sign of [x]. *)
Theorem DivideFunctor_zero_count (t : scalar_type) (x : fp (format_of t)) :
  of_Z binary64 0 = FP (S754_zero false)
  /\ fdiv (one binary64) (of_Z binary64 0) = pinf binary64
  /\ n_inv (DivideFunctor_new (T := fp (format_of t)) 0) = pinf (format_of t)
  /\ DivideFunctor_call (DivideFunctor_new 0) x = fmul x (pinf (format_of t))
  /\ sf (DivideFunctor_call (DivideFunctor_new 0) x)
     = match sf x with
       | S754_nan | S754_zero _ => S754_nan
       | S754_infinity s | S754_finite s _ _ => S754_infinity s
       end.
Proof.
  split; [reflexivity | split; [reflexivity | ] ].
  split; [apply n_inv_zero | ].
  unfold DivideFunctor_call, mul, fp_mul. rewrite n_inv_zero.
  split; [reflexivity | apply fmul_pinf_r].
Qed.

(** C9: in each of the three types the sum of [2.0, 4.0, 6.0, 8.0] is
    [20.0], the reciprocal [DivideFunctor(4)] stores is [0.25], and the
    functor applied to the sum returns [5.0]. *)
Theorem mean_of_four (t : scalar_type) :
  sum (map (of_Z (format_of t)) [2; 4; 6; 8]) = of_Z (format_of t) 20
  /\ n_inv (DivideFunctor_new (T := fp (format_of t)) 4)
     = fdiv (one (format_of t)) (of_Z (format_of t) 4)
  /\ DivideFunctor_call (DivideFunctor_new 4)
       (sum (map (of_Z (format_of t)) [2; 4; 6; 8]))
     = of_Z (format_of t) 5.
Proof. destruct t; vm_compute; repeat split. Qed.

Lemma n_inv_one (t : scalar_type) :
  n_inv (DivideFunctor_new (T := fp (format_of t)) 1) = one (format_of t).
Proof. destruct t; reflexivity. Qed.

(** C10: [DivideFunctor<T>(1)] stores exactly [1.0], and applied to a
    value [x] of type [T] it returns [x] itself. *)
Theorem DivideFunctor_one_identity (t : scalar_type) (x : fp (format_of t)) :
  valid x = true ->
  n_inv (DivideFunctor_new (T := fp (format_of t)) 1) = one (format_of t)
  /\ DivideFunctor_call (DivideFunctor_new 1) x = x.
Proof.
  intros Hv. split; [apply n_inv_one | ].
  unfold DivideFunctor_call, mul, fp_mul. rewrite n_inv_one.
  apply fmul_one_r. exact Hv.
Qed.

Lemma DivideFunctor_one_identity_witness :
  valid (fdiv (one binary32) (of_Z binary32 3)) = true
  /\ n_inv (DivideFunctor_new (T := float) 1) = one binary32
  /\ DivideFunctor_call (T := float) (DivideFunctor_new 1)
       (fdiv (one binary32) (of_Z binary32 3))
     = fdiv (one binary32) (of_Z binary32 3).
Proof.
  split; [reflexivity | ].
  apply (DivideFunctor_one_identity float_t
           (fdiv (one binary32) (of_Z binary32 3))).
  reflexivity.
Defined.

(** * Further properties of the functors *)

(** ** Rounding does not depend on how a number is written *)

Section Representation.
Variables prec emax : Z.

Lemma iter_xO_add (m d g : positive) :
  Pos.iter xO (Pos.iter xO m g) d = Pos.iter xO m (d + g).
Proof. symmetry. apply Pos.iter_add. Qed.

Lemma shr_1_shift_add (m d g : positive) :
  Pos.iter shr_1 (Build_shr_record (Zpos (Pos.iter xO m d)) false false) (g + d)
  = Pos.iter shr_1 (Build_shr_record (Zpos m) false false) g.
Proof. rewrite Pos.iter_add, shr_1_shift. reflexivity. Qed.

(** The first right shift of [binary_round_aux] sees the same record
    whether the mantissa comes with [d] more low zero bits or is aligned
    by [shl_align], provided the target exponent is not below the
    exponent of the longer writing. *)
Lemma shr_fexp_shifted (m d : positive) (E : Z) :
  E - Zpos d <= fexp prec emax (Zpos (digits2_pos m) + E) ->
  shr_fexp prec emax (Zpos (Pos.iter xO m d)) (E - Zpos d) loc_Exact
  = shr_fexp prec emax
      (Zpos (fst (shl_align m E (fexp prec emax (Zpos (digits2_pos m) + E)))))
      (snd (shl_align m E (fexp prec emax (Zpos (digits2_pos m) + E))))
      loc_Exact.
Proof.
  intros Hfe. unfold shr_fexp. cbn [Zdigits2].
  rewrite digits2_pos_shift.
  replace (Zpos (digits2_pos m + d) + (E - Zpos d))
    with (Zpos (digits2_pos m) + E) by lia.
  set (fe := fexp prec emax (Zpos (digits2_pos m) + E)) in *.
  unfold shl_align.
  destruct (fe - E) as [ | g | g] eqn:Hg; cbn [fst snd].
  - (* fe = E *)
    fold fe. rewrite Hg.
    replace (fe - (E - Zpos d)) with (Zpos d) by lia.
    cbn [shr shr_record_of_loc].
    rewrite iter_pos_iter, shr_1_shift. f_equal. lia.
  - (* fe > E *)
    fold fe. rewrite Hg.
    replace (fe - (E - Zpos d)) with (Zpos (g + d)) by lia.
    cbn [shr shr_record_of_loc].
    rewrite !iter_pos_iter, shr_1_shift_add. f_equal. lia.
  - (* fe < E *)
    rewrite digits2_pos_shift.
    replace (Zpos (digits2_pos m + g) + fe)
      with (Zpos (digits2_pos m) + E) by lia.
    fold fe. rewrite Z.sub_diag.
    destruct (fe - (E - Zpos d)) as [ | h | h] eqn:Hh.
    + replace d with g by lia. cbn [shr]. f_equal. lia.
    + replace d with (h + g)%positive by lia.
      rewrite <- iter_xO_add.
      cbn [shr shr_record_of_loc].
      rewrite iter_pos_iter, shr_1_shift. f_equal. lia.
    + lia.
Qed.

Lemma binary_round_aux_shifted (s : bool) (m d : positive) (E : Z) :
  E - Zpos d <= fexp prec emax (Zpos (digits2_pos m) + E) ->
  binary_round_aux prec emax s (Zpos (Pos.iter xO m d)) (E - Zpos d) loc_Exact
  = binary_round prec emax s m E.
Proof.
  intros Hfe. unfold binary_round.
  destruct (shl_align m E (fexp prec emax (Zpos (digits2_pos m) + E)))
    as [mz ez] eqn:Hs.
  unfold binary_round_aux.
  rewrite (shr_fexp_shifted m d E Hfe), Hs. reflexivity.
Qed.

(** [m * 2^d * 2^(E - d)] and [m * 2^E] round to the same number. *)
Lemma binary_round_shifted (s : bool) (m d : positive) (E : Z) :
  binary_round prec emax s (Pos.iter xO m d) (E - Zpos d)
  = binary_round prec emax s m E.
Proof.
  destruct (Z_le_gt_dec (E - Zpos d)
              (fexp prec emax (Zpos (digits2_pos m) + E))) as [Hle | Hgt].
  - rewrite <- (binary_round_aux_shifted s m d E Hle).
    unfold binary_round at 1. rewrite digits2_pos_shift.
    replace (Zpos (digits2_pos m + d) + (E - Zpos d))
      with (Zpos (digits2_pos m) + E) by lia.
    unfold shl_align.
    destruct (fexp prec emax (Zpos (digits2_pos m) + E) - (E - Zpos d))
      eqn:Hd; try reflexivity.
    lia.
  - unfold binary_round. rewrite digits2_pos_shift.
    replace (Zpos (digits2_pos m + d) + (E - Zpos d))
      with (Zpos (digits2_pos m) + E) by lia.
    set (fe := fexp prec emax (Zpos (digits2_pos m) + E)) in *.
    unfold shl_align.
    destruct (fe - (E - Zpos d)) as [ | h | h] eqn:Hh; try lia.
    destruct (fe - E) as [ | g | g] eqn:Hg; try lia.
    replace g with (h + d)%positive by lia.
    rewrite iter_xO_add. reflexivity.
Qed.

(** Rounding a number of the format returns it. *)
Lemma binary_round_valid (s : bool) (m : positive) (e : Z) :
  bounded prec emax m e = true ->
  binary_round prec emax s m e = S754_finite s m e.
Proof.
  intros Hb. unfold binary_round.
  assert (Hc : fexp prec emax (Zpos (digits2_pos m) + e) = e).
  { unfold bounded, canonical_mantissa in Hb.
    apply andb_true_iff in Hb. destruct Hb as [Hc _].
    apply Z.eqb_eq in Hc. exact Hc. }
  rewrite Hc. unfold shl_align. rewrite Z.sub_diag.
  apply binary_round_aux_canonical. exact Hb.
Qed.
End Representation.

(** ** Signs pass through rounding *)

Section Signs.
Variables prec emax : Z.

Lemma binary_round_aux_opp (s : bool) (mx ex : Z) (lx : location) :
  binary_round_aux prec emax (negb s) mx ex lx
  = SFopp (binary_round_aux prec emax s mx ex lx).
Proof.
  unfold binary_round_aux.
  destruct (shr_fexp prec emax mx ex lx) as [mrs' e'].
  destruct (shr_fexp prec emax _ e' loc_Exact) as [mrs'' e''].
  destruct (shr_m mrs'') as [ | p | p]; try reflexivity.
  destruct (e'' <=? emax - prec); reflexivity.
Qed.


Lemma SFmul_opp_l (x y : spec_float) :
  SFmul prec emax (SFopp x) y = SFopp (SFmul prec emax x y).
Proof.
  destruct x as [sx | sx | | sx mx ex], y as [sy | sy | | sy my ey];
    simpl; rewrite ?negb_xorb_l; try reflexivity.
  rewrite <- negb_xorb_l. apply binary_round_aux_opp.
Qed.



End Signs.


(** X1: [DivideFunctor] is odd in its argument: on [-x] it returns the
    negation of what it returns on [x], for every count, every stored
    reciprocal and every value, signed zeros and infinities included. *)
Theorem DivideFunctor_call_opp
    (fmt : format) (self : DivideFunctor (fp fmt)) (x : fp fmt) :
  DivideFunctor_call self (fopp x) = fopp (DivideFunctor_call self x).
Proof.
  unfold DivideFunctor_call, mul, fp_mul, fmul, fopp. cbn [sf].
  rewrite SFmul_opp_l. reflexivity.
Qed.



(** ** Counts that are powers of two *)

(** Multiplying by [2^d * 2^eR], a power of two written with at least
    [prec] bits, is [ldexp]: one rounding of the scaled number. *)
Lemma SFmul_pow2 (prec emax : Z) (d : positive) (eR : Z) (x : spec_float) :
  prec <= Zpos d + 1 ->
  SFmul prec emax x (S754_finite false (Pos.iter xO 1%positive d) eR)
  = SFldexp prec emax x (eR + Zpos d).
Proof.
  intros Hd. destruct x as [s | s | | s m e]; simpl;
    rewrite ?xorb_false_r; try reflexivity.
  rewrite mul_pow2.
  replace (e + eR) with (e + (eR + Zpos d) - Zpos d) by lia.
  apply binary_round_aux_shifted. unfold fexp. lia.
Qed.

Lemma n_inv_pow2 (t : scalar_type) (k : Z) :
  0 <= k <= max_pow2_count t ->
  n_inv (DivideFunctor_new (T := fp (format_of t)) (2 ^ k))
  = FP (S754_finite false (Pos.iter xO 1%positive (frac_bits t))
          (- k - Zpos (frac_bits t))).
Proof.
  intros Hk. destruct k as [ | p | p]; [destruct t; reflexivity | | lia].
  destruct t; cbn [max_pow2_count] in Hk;
    do 5 (try (destruct p as [p | p | ]; try lia; try reflexivity)).
Qed.

Lemma call_pow2_ldexp (t : scalar_type) (k : Z) (x : fp (format_of t)) :
  0 <= k <= max_pow2_count t ->
  DivideFunctor_call (DivideFunctor_new (2 ^ k)) x = fldexp x (- k).
Proof.
  intros Hk. unfold DivideFunctor_call, mul, fp_mul, fmul, fldexp.
  rewrite n_inv_pow2 by exact Hk. cbn [sf].
  rewrite SFmul_pow2 by (destruct t; simpl; lia).
  do 2 f_equal. lia.
Qed.

(** X3: for a count [2^k] that an [int] holds and whose reciprocal is a
    normal number of the type ([k <= 30] for [float] and [double],
    [k <= 14] for [float16]), [DivideFunctor] returns [ldexp(x, -k)]: the
    input scaled by [2^(-k)] and rounded once, so that the rounding of the
    reciprocal and the rounding of the product do not add up. *)
Theorem DivideFunctor_power_of_two
    (t : scalar_type) (k : Z) (x : fp (format_of t)) :
  0 <= k <= max_pow2_count t ->
  DivideFunctor_call (DivideFunctor_new (2 ^ k)) x = fldexp x (- k).
Proof. apply call_pow2_ldexp. Qed.

Lemma DivideFunctor_power_of_two_witness :
  0 <= 3 <= max_pow2_count float_t
  /\ DivideFunctor_call (T := float) (DivideFunctor_new (2 ^ 3))
       (of_Z binary32 5)
     = fldexp (of_Z binary32 5) (- 3).
Proof.
  split; [simpl; lia | ].
  apply (DivideFunctor_power_of_two float_t 3 (of_Z binary32 5)).
  simpl; lia.
Defined.

(** X4: when the quotient by [2^k] keeps the mantissa of [x] in the
    format (the lowered exponent is still canonical, so nothing
    underflows), [DivideFunctor(2^k)] is exact: it returns the mantissa of
    [x] with the exponent lowered by [k]. *)
Theorem DivideFunctor_power_of_two_exact
    (t : scalar_type) (k : Z) (s : bool) (m : positive) (e : Z) :
  0 <= k <= max_pow2_count t ->
  bounded (prec (format_of t)) (emax (format_of t)) m (e - k) = true ->
  DivideFunctor_call (T := fp (format_of t)) (DivideFunctor_new (2 ^ k))
    (FP (S754_finite s m e))
  = FP (S754_finite s m (e - k)).
Proof.
  intros Hk Hb.
  rewrite call_pow2_ldexp by exact Hk.
  unfold fldexp. cbn [sf SFldexp]. f_equal.
  apply binary_round_valid. exact Hb.
Qed.

Lemma DivideFunctor_power_of_two_exact_witness :
  (0 <= 2 <= max_pow2_count double_t
   /\ bounded (prec binary64) (emax binary64) 6755399441055744 (- 51 - 2)
      = true)
  /\ DivideFunctor_call (T := double) (DivideFunctor_new (2 ^ 2))
       (FP (S754_finite true 6755399441055744 (- 51)))
     = FP (S754_finite true 6755399441055744 (- 51 - 2)).
Proof.
  split; [split; [simpl; lia | reflexivity] | ].
  apply (DivideFunctor_power_of_two_exact double_t 2 true
           6755399441055744 (- 51)); [simpl; lia | reflexivity].
Defined.

(** ** Casts through a wider type *)

Lemma format_eqb_eq (a b : format) : format_eqb a b = true -> a = b.
Proof.
  destruct a as [pa ea], b as [pb eb]. unfold format_eqb. cbn [prec emax].
  intros H. apply andb_true_iff in H. destruct H as [Hp He].
  apply Z.eqb_eq in Hp, He. subst. reflexivity.
Qed.

Lemma retag_same (a : format) (x : fp a) : FP (fmt := a) (sf x) = x.
Proof. destruct x. reflexivity. Qed.

(** Converting a value of a format into that format changes nothing. *)
Lemma convert_valid (a : format) (x : fp a) :
  valid x = true -> convert a x = x.
Proof.
  destruct x as [[s | s | | s m e]]; unfold valid, convert; cbn [sf];
    intros Hv; try reflexivity.
  rewrite binary_round_valid by exact Hv. reflexivity.
Qed.

(** Converting into a wider format first does not change what a second
    conversion returns. *)
Lemma convert_convert (a b c : format) (x : fp a) :
  widens a b = true -> valid x = true ->
  convert c (convert b x) = convert c x.
Proof.
  unfold widens. intros Hw Hv.
  apply andb_true_iff in Hw. destruct Hw as [Hw H4].
  apply andb_true_iff in Hw. destruct Hw as [Hw H3].
  apply andb_true_iff in Hw. destruct Hw as [H1 H2].
  apply Z.leb_le in H1, H2, H3, H4.
  destruct x as [[s | s | | s m e]]; try reflexivity.
  unfold valid in Hv. cbn [sf valid_binary] in Hv.
  unfold convert at 2 3. cbn [sf].
  destruct (binary_round_widen _ _ _ _ H1 H2 H3 H4 s m e Hv)
    as (m' & e' & Hr & Hle & Hm).
  rewrite Hr. unfold convert. cbn [sf]. f_equal.
  destruct (e - e') as [ | d | d] eqn:Hd; try lia.
  - simpl in Hm. injection Hm as Hm.
    replace e' with e by lia. subst m'. reflexivity.
  - rewrite <- pos_shiftl in Hm. injection Hm as Hm. subst m'.
    replace e' with (e - Zpos d) by lia.
    apply binary_round_shifted.
Qed.

Lemma static_cast_compose (a b c : format) (x : fp a) :
  widens a b = true -> valid x = true ->
  static_cast (A := fp b) (B := fp c) (static_cast (B := fp b) x)
  = static_cast x.
Proof.
  intros Hw Hv. unfold static_cast, fp_cast.
  destruct (format_eqb a b) eqn:Hab.
  - apply format_eqb_eq in Hab. subst b. cbn [sf]. reflexivity.
  - destruct (format_eqb b c) eqn:Hbc.
    + apply format_eqb_eq in Hbc. subst c. rewrite Hab. apply retag_same.
    + rewrite convert_convert by assumption.
      destruct (format_eqb a c) eqn:Hac; [ | reflexivity].
      apply format_eqb_eq in Hac. subst c.
      rewrite convert_valid by exact Hv. symmetry. apply retag_same.
Qed.

(** X5: a cast to a wider type and back is the identity:
    [IdentityFunctor<Ty, Tx>] applied to the result of
    [IdentityFunctor<Tx, Ty>] on a value [x] of [Tx] returns [x], when
    [Ty] holds every number of [Tx]. *)
Theorem IdentityFunctor_round_trip
    (a b : format) (n n' : int) (x : fp a) :
  widens a b = true -> valid x = true ->
  IdentityFunctor_call (Tx := fp b) (Ty := fp a) (IdentityFunctor_new n')
    (IdentityFunctor_call (Ty := fp b) (IdentityFunctor_new n) x)
  = x.
Proof.
  intros Hw Hv. unfold IdentityFunctor_call.
  rewrite static_cast_compose by assumption. apply static_cast_same.
Qed.

Lemma IdentityFunctor_round_trip_witness :
  (widens binary32 binary64 = true
   /\ valid (fdiv (one binary32) (of_Z binary32 3)) = true)
  /\ IdentityFunctor_call (Tx := double) (Ty := float) (IdentityFunctor_new 1)
       (IdentityFunctor_call (Tx := float) (Ty := double)
          (IdentityFunctor_new 2) (fdiv (one binary32) (of_Z binary32 3)))
     = fdiv (one binary32) (of_Z binary32 3).
Proof.
  split; [split; reflexivity | ].
  apply (IdentityFunctor_round_trip binary32 binary64 2 1
           (fdiv (one binary32) (of_Z binary32 3))); reflexivity.
Defined.

(** X6: two identity functors in a row, the first into a type that holds
    every number of the input type, return what the single functor from
    the input type to the last output type returns. *)
Theorem IdentityFunctor_compose
    (a b c : format) (n1 n2 n3 : int) (x : fp a) :
  widens a b = true -> valid x = true ->
  IdentityFunctor_call (Tx := fp b) (Ty := fp c) (IdentityFunctor_new n2)
    (IdentityFunctor_call (Ty := fp b) (IdentityFunctor_new n1) x)
  = IdentityFunctor_call (Ty := fp c) (IdentityFunctor_new n3) x.
Proof.
  intros Hw Hv. unfold IdentityFunctor_call.
  apply static_cast_compose; assumption.
Qed.

Lemma IdentityFunctor_compose_witness :
  (widens binary32 binary64 = true
   /\ valid (fdiv (one binary32) (of_Z binary32 3)) = true)
  /\ IdentityFunctor_call (Tx := double) (Ty := float16)
       (IdentityFunctor_new 1)
       (IdentityFunctor_call (Tx := float) (Ty := double)
          (IdentityFunctor_new 2) (fdiv (one binary32) (of_Z binary32 3)))
     = IdentityFunctor_call (Tx := float) (Ty := float16)
         (IdentityFunctor_new 3) (fdiv (one binary32) (of_Z binary32 3)).
Proof.
  split; [split; reflexivity | ].
  apply (IdentityFunctor_compose binary32 binary64 binary16 2 1 3
           (fdiv (one binary32) (of_Z binary32 3))); reflexivity.
Defined.

(** X7: the exponential with a wide output type, cast down afterwards,
    is the exponential with the narrow output type: when the routine
    returns a value of its type and [Ty] holds every number of [Tx],
    [IdentityFunctor<Ty, Tz>] after [ExpLogitTransformer<Tx, Ty>] is
    [ExpLogitTransformer<Tx, Tz>]. *)
Theorem ExpLogitTransformer_then_cast
    (a b c : format) (E : ExpFunctorOverload (fp a))
    (n1 n2 n3 : int) (x : fp a) :
  widens a b = true -> valid (ExpFunctor x) = true ->
  IdentityFunctor_call (Tx := fp b) (Ty := fp c) (IdentityFunctor_new n2)
    (ExpLogitTransformer_call (Ty := fp b) (ExpLogitTransformer_new n1) x)
  = ExpLogitTransformer_call (Ty := fp c) (ExpLogitTransformer_new n3) x.
Proof.
  intros Hw Hv. unfold IdentityFunctor_call, ExpLogitTransformer_call.
  apply static_cast_compose; assumption.
Qed.

Lemma ExpLogitTransformer_then_cast_witness :
  (widens binary32 binary64 = true
   /\ valid (ExpFunctor (ExpFunctorOverload := fun x : float => fmul x x)
               (of_Z binary32 3)) = true)
  /\ IdentityFunctor_call (Tx := double) (Ty := float16)
       (IdentityFunctor_new 1)
       (ExpLogitTransformer_call (Tx := float) (Ty := double)
          (E := fun x : float => fmul x x)
          (ExpLogitTransformer_new 2) (of_Z binary32 3))
     = ExpLogitTransformer_call (Tx := float) (Ty := float16)
         (E := fun x : float => fmul x x)
         (ExpLogitTransformer_new 3) (of_Z binary32 3).
Proof.
  split; [split; reflexivity | ].
  apply (ExpLogitTransformer_then_cast binary32 binary64 binary16
           (fun x : float => fmul x x) 2 1 3 (of_Z binary32 3));
    reflexivity.
Defined.

(** ** The mean of a value with itself *)

Section Doubling.
Variables prec emax : Z.

Lemma binary_round_aux_canonical_gen (s : bool) (m : positive) (e : Z) :
  canonical_mantissa prec emax m e = true ->
  binary_round_aux prec emax s (Zpos m) e loc_Exact
  = if e <=? emax - prec then S754_finite s m e else S754_infinity s.
Proof.
  unfold canonical_mantissa. intros Hc. apply Z.eqb_eq in Hc.
  unfold binary_round_aux, shr_fexp. cbn [Zdigits2].
  rewrite Hc, Z.sub_diag.
  cbn [shr shr_record_of_loc shr_m loc_of_shr_record round_nearest_even
       Zdigits2].
  rewrite Hc, Z.sub_diag. cbn [shr shr_m]. reflexivity.
Qed.

(** [x + x] is [x] with the exponent raised by one, rounded. *)
Lemma SFadd_diag (s : bool) (m : positive) (e : Z) :
  SFadd prec emax (S754_finite s m e) (S754_finite s m e)
  = binary_round prec emax s m (e + 1).
Proof.
  unfold SFadd. rewrite Z.min_id. unfold shl_align.
  rewrite Z.sub_diag. cbn [fst].
  rewrite <- (binary_round_shifted prec emax s m 1 (e + 1)).
  replace (e + 1 - 1) with e by lia.
  destruct s; cbn [cond_Zopp]; simpl Z.add; rewrite Pos.add_diag;
    reflexivity.
Qed.

(** Halving [x + x] gives [x] back unless the sum overflowed. *)
Lemma SFldexp_SFadd_diag (s : bool) (m : positive) (e : Z) :
  bounded prec emax m e = true ->
  (SFadd prec emax (S754_finite s m e) (S754_finite s m e)
   = S754_infinity s -> False) ->
  SFldexp prec emax
    (SFadd prec emax (S754_finite s m e) (S754_finite s m e)) (- 1)
  = S754_finite s m e.
Proof.
  intros Hb Hfin. rewrite SFadd_diag in *.
  assert (Hb' := Hb). unfold bounded, canonical_mantissa in Hb'.
  apply andb_true_iff in Hb'. destruct Hb' as [Hc He].
  apply Z.eqb_eq in Hc. apply Z.leb_le in He.
  set (dg := digits2_pos m) in *.
  assert (Hcase : fexp prec emax (Zpos dg + (e + 1)) = e + 1
                  \/ fexp prec emax (Zpos dg + (e + 1)) = e).
  { unfold fexp in *. lia. }
  destruct Hcase as [Hn | Hsub].
  - (* the mantissa is full: the exponent moves *)
    assert (Hr : binary_round prec emax s m (e + 1)
                 = if e + 1 <=? emax - prec
                   then S754_finite s m (e + 1) else S754_infinity s).
    { unfold binary_round. fold dg. rewrite Hn. unfold shl_align.
      rewrite Z.sub_diag. apply binary_round_aux_canonical_gen.
      unfold canonical_mantissa. fold dg. rewrite Hn. apply Z.eqb_refl. }
    rewrite Hr in *.
    destruct (e + 1 <=? emax - prec).
    + cbn [SFldexp]. replace (e + 1 + - 1) with e by lia.
      apply binary_round_valid. exact Hb.
    + exfalso. apply Hfin. reflexivity.
  - (* a subnormal: the mantissa moves *)
    assert (Hr : binary_round prec emax s m (e + 1)
                 = S754_finite s (Pos.iter xO m 1) e).
    { rewrite <- (binary_round_shifted prec emax s m 1 (e + 1)).
      replace (e + 1 - 1) with e by lia.
      apply binary_round_valid. unfold bounded, canonical_mantissa.
      rewrite digits2_pos_shift. fold dg.
      replace (Zpos (dg + 1) + e) with (Zpos dg + (e + 1)) by lia.
      rewrite Hsub, Z.eqb_refl. cbn [andb]. apply Z.leb_le. exact He. }
    rewrite Hr. cbn [SFldexp].
    replace (e + - 1) with (e - 1) by lia.
    rewrite binary_round_shifted. apply binary_round_valid. exact Hb.
Qed.
End Doubling.

(** X8: the mean of two equal values is that value.  For a value [x] of
    the type other than [-0], when the sum [x + x] of the reduction is
    finite (no overflow), [DivideFunctor(2)] applied to it returns [x]
    exactly, subnormal numbers included. *)
Theorem mean_of_pair (t : scalar_type) (x : fp (format_of t)) :
  valid x = true -> is_finite (sum [x; x]) = true ->
  sf x <> S754_zero true ->
  DivideFunctor_call (DivideFunctor_new 2) (sum [x; x]) = x.
Proof.
  intros Hv Hf Hz.
  rewrite (call_pow2_ldexp t 1) by (destruct t; simpl; lia).
  destruct x as [[s | s | | s m e]].
  - destruct s; [contradiction Hz; reflexivity | reflexivity].
  - destruct s; discriminate Hf.
  - discriminate Hf.
  - unfold valid in Hv. cbn [sf valid_binary] in Hv.
    unfold sum, fold_left, fadd, fldexp, is_finite in *. cbn [sf] in *.
    change (sf (of_Z (format_of t) 0)) with (S754_zero false) in *.
    change (SFadd (prec (format_of t)) (emax (format_of t))
              (S754_zero false) (S754_finite s m e))
      with (S754_finite s m e) in *.
    f_equal. apply SFldexp_SFadd_diag; [exact Hv | ].
    intros Hinf. rewrite Hinf in Hf. discriminate Hf.
Qed.

Lemma mean_of_pair_witness :
  (valid (fdiv (one binary32) (of_Z binary32 3)) = true
   /\ is_finite (sum [fdiv (one binary32) (of_Z binary32 3);
                      fdiv (one binary32) (of_Z binary32 3)]) = true
   /\ sf (fdiv (one binary32) (of_Z binary32 3)) <> S754_zero true)
  /\ DivideFunctor_call (T := float) (DivideFunctor_new 2)
       (sum [fdiv (one binary32) (of_Z binary32 3);
             fdiv (one binary32) (of_Z binary32 3)])
     = fdiv (one binary32) (of_Z binary32 3).
Proof.
  split; [split; [reflexivity | split; [reflexivity | discriminate] ] | ].
  apply (mean_of_pair float_t (fdiv (one binary32) (of_Z binary32 3)));
    [reflexivity | reflexivity | discriminate].
Defined.

(** For a count that is no power of two the stored reciprocal is rounded,
    and the product can differ from the rounded quotient. *)
Example DivideFunctor_3_is_not_the_quotient :
  DivideFunctor_call (T := float) (DivideFunctor_new 3) (of_Z binary32 5)
  <> fdiv (of_Z binary32 5) (of_Z binary32 3).
Proof. discriminate. Qed.

(** ** The count as a [double] *)

Lemma digits2_pos_size (p : positive) : digits2_pos p = Pos.size p.
Proof. induction p as [p IH | p IH | ]; simpl; rewrite ?IH; reflexivity. Qed.

Lemma digits2_pos_le (p : positive) (k : Z) :
  0 <= k -> Zpos p < 2 ^ k -> Zpos (digits2_pos p) <= k.
Proof.
  intros Hk Hp. rewrite digits2_pos_size.
  assert (Hs := Pos.size_le p).
  assert (Hz : 2 ^ Zpos (Pos.size p) <= 2 * Zpos p).
  { change (2 * Zpos p) with (Zpos p~0).
    change 2 with (Zpos 2). rewrite <- Pos2Z.inj_pow.
    apply Pos2Z.pos_le_pos. exact Hs. }
  assert (Hlt : 2 ^ Zpos (Pos.size p) < 2 ^ (k + 1)).
  { rewrite Z.pow_add_r, Z.pow_1_r by lia. lia. }
  apply Z.pow_lt_mono_r_iff in Hlt; lia.
Qed.

Lemma binary_round_int (s : bool) (p : positive) :
  Zpos p < 2 ^ 53 ->
  exists m e,
    binary_round 53 1024 s p 0 = S754_finite s m e
    /\ e <= 0 /\ Zpos m = Zpos p * 2 ^ (- e)
    /\ bounded 53 1024 m e = true.
Proof.
  intros Hp. assert (Hd := digits2_pos_le p 53 ltac:(lia) Hp).
  unfold binary_round.
  set (dg := digits2_pos p) in *.
  assert (Hfe : fexp 53 1024 (Zpos dg + 0) = Zpos dg - 53).
  { unfold fexp, emin. lia. }
  rewrite Hfe. unfold shl_align.
  destruct (Zpos dg - 53 - 0) as [ | d | d] eqn:Hsub; try lia.
  - assert (Hb : bounded 53 1024 p 0 = true).
    { unfold bounded, canonical_mantissa. fold dg. rewrite Hfe.
      replace (Zpos dg - 53) with 0 by lia. reflexivity. }
    exists p, 0. rewrite binary_round_aux_canonical by exact Hb.
    repeat split; try lia. exact Hb.
  - assert (Hb : bounded 53 1024 (Pos.iter xO p d) (Zpos dg - 53) = true).
    { unfold bounded, canonical_mantissa. rewrite digits2_pos_shift.
      fold dg. replace (Zpos (dg + d) + (Zpos dg - 53)) with (Zpos dg + 0)
        by lia.
      rewrite Hfe, Z.eqb_refl. cbn [andb]. apply Z.leb_le. lia. }
    exists (Pos.iter xO p d), (Zpos dg - 53).
    rewrite binary_round_aux_canonical by exact Hb.
    repeat split; try lia; [ | exact Hb].
    rewrite pos_shiftl, Z.shiftl_mul_pow2 by lia. f_equal. f_equal. lia.
Qed.

(** X9: the constructor of [DivideFunctor] divides by the count itself:
    the [double] a count [n] other than zero converts to (every [int],
    and every integer below [2^53] in magnitude) is a number of the
    format with the sign of [n] and the value [|n|], no bit of [n] being
    rounded away before the division. *)
Theorem count_to_double_exact (n : int) :
  n <> 0 -> Z.abs n < 2 ^ 53 ->
  exists m e,
    sf (of_Z binary64 n) = S754_finite (n <? 0) m e
    /\ e <= 0 /\ Zpos m = Z.abs n * 2 ^ (- e)
    /\ valid (of_Z binary64 n) = true
    /\ n_inv (DivideFunctor_new (T := double) n)
       = fdiv (one binary64) (FP (S754_finite (n <? 0) m e)).
Proof.
  intros Hn Habs. unfold of_Z, valid. cbn [sf prec emax binary64].
  destruct n as [ | p | p]; [contradiction | | ];
    cbn [binary_normalize];
    [destruct (binary_round_int false p Habs) as (m & e & Hr & He & Hm & Hb)
    |destruct (binary_round_int true p Habs) as (m & e & Hr & He & Hm & Hb)];
    exists m, e; rewrite Hr; cbn [valid_binary];
    (repeat split; [exact He | exact Hm | exact Hb | ]);
    unfold DivideFunctor_new, of_Z; cbn [n_inv prec emax binary64 binary_normalize];
    rewrite Hr; apply static_cast_same.
Qed.

Lemma count_to_double_exact_witness :
  (1000 <> 0 /\ Z.abs 1000 < 2 ^ 53)
  /\ exists m e,
    sf (of_Z binary64 1000) = S754_finite (1000 <? 0) m e
    /\ e <= 0 /\ Zpos m = Z.abs 1000 * 2 ^ (- e)
    /\ valid (of_Z binary64 1000) = true
    /\ n_inv (DivideFunctor_new (T := double) 1000)
       = fdiv (one binary64) (FP (S754_finite (1000 <? 0) m e)).
Proof.
  split; [split; [discriminate | reflexivity] | ].
  apply (count_to_double_exact 1000); [discriminate | reflexivity].
Defined.

(** ** Results are numbers of their format *)

Section Validity.
Variables prec emax : Z.
Hypothesis Hprec : 1 < prec.

Lemma Zdigits2_nonneg (m : Z) :
  0 <= m -> 0 <= Zdigits2 m /\ (0 < m -> 1 <= Zdigits2 m)
            /\ (Zdigits2 m = 0 -> m = 0).
Proof.
  destruct m as [ | p | p]; simpl; intros H; repeat split; lia.
Qed.

Lemma shr_1_spec (mrs : shr_record) :
  0 <= shr_m mrs ->
  0 <= shr_m (shr_1 mrs)
  /\ Zdigits2 (shr_m (shr_1 mrs)) = Z.max 0 (Zdigits2 (shr_m mrs) - 1).
Proof.
  destruct mrs as [m r s].
  destruct m as [ | [p | p | ] | p];
    cbn [shr_1 shr_m Zdigits2 digits2_pos]; intros H; split; lia.
Qed.

Lemma shr_iter_spec (n : positive) (mrs : shr_record) :
  0 <= shr_m mrs ->
  0 <= shr_m (Pos.iter shr_1 mrs n)
  /\ Zdigits2 (shr_m (Pos.iter shr_1 mrs n))
     = Z.max 0 (Zdigits2 (shr_m mrs) - Zpos n).
Proof.
  intros H. induction n as [ | n IH] using Pos.peano_ind.
  - apply shr_1_spec. exact H.
  - rewrite Pos.iter_succ. destruct IH as [IH1 IH2].
    destruct (shr_1_spec _ IH1) as [H1 H2]. split; [exact H1 | ].
    rewrite H2, IH2. lia.
Qed.

Lemma shr_m_of_loc (m : Z) (l : location) :
  shr_m (shr_record_of_loc m l) = m.
Proof. destruct l as [ | [ | | ]]; reflexivity. Qed.

(** What the right shift to the target exponent leaves. *)
Lemma shr_fexp_spec (mx ex : Z) (lx : location) :
  0 <= mx -> ex <= fexp prec emax (Zdigits2 mx + ex) ->
  snd (shr_fexp prec emax mx ex lx) = fexp prec emax (Zdigits2 mx + ex)
  /\ 0 <= shr_m (fst (shr_fexp prec emax mx ex lx))
  /\ Zdigits2 (shr_m (fst (shr_fexp prec emax mx ex lx)))
     = Z.max 0 (Zdigits2 mx
                - (fexp prec emax (Zdigits2 mx + ex) - ex)).
Proof.
  intros Hm He. destruct (Zdigits2_nonneg mx Hm) as (Hd & _ & _).
  unfold shr_fexp, shr.
  destruct (fexp prec emax (Zdigits2 mx + ex) - ex) as [ | n | n] eqn:Hn;
    cbn [fst snd].
  - rewrite shr_m_of_loc. repeat split; lia.
  - rewrite iter_pos_iter.
    destruct (shr_iter_spec n (shr_record_of_loc mx lx)) as [H1 H2].
    { rewrite shr_m_of_loc. exact Hm. }
    rewrite shr_m_of_loc in H2. repeat split; lia.
  - lia.
Qed.

Lemma Zdigits2_succ (m : Z) :
  0 <= m ->
  Zdigits2 (m + 1) = Zdigits2 m \/ Zdigits2 (m + 1) = Zdigits2 m + 1.
Proof.
  destruct m as [ | p | p]; intros H; [right; reflexivity | | lia].
  change (Zpos p + 1) with (Zpos (p + 1)). rewrite Pos.add_1_r.
  unfold Zdigits2.
  induction p as [p IH | p IH | ]; simpl.
  - assert (IH' := IH ltac:(lia)). destruct IH' as [IH' | IH']; [left | right];
      injection IH' as IH'; lia.
  - left. reflexivity.
  - right. reflexivity.
Qed.

Lemma round_nearest_even_spec (m : Z) (l : location) :
  round_nearest_even m l = m \/ round_nearest_even m l = m + 1.
Proof.
  destruct l as [ | [ | | ]]; simpl; auto.
  destruct (Z.even m); auto.
Qed.

(** Rounding returns a number of the format whenever the mantissa it is
    given is long enough for its exponent. *)
Lemma binary_round_aux_valid (s : bool) (mx ex : Z) (lx : location) :
  0 <= mx -> ex <= fexp prec emax (Zdigits2 mx + ex) ->
  valid_binary prec emax (binary_round_aux prec emax s mx ex lx) = true.
Proof.
  intros Hm He. unfold binary_round_aux.
  destruct (shr_fexp_spec mx ex lx Hm He) as (He1 & Hm1 & Hd1).
  destruct (shr_fexp prec emax mx ex lx) as [mrs1 e1]. cbn [fst snd] in *.
  set (m1 := shr_m mrs1) in *.
  set (mr := round_nearest_even m1 (loc_of_shr_record mrs1)).
  assert (Hmr : mr = m1 \/ mr = m1 + 1) by apply round_nearest_even_spec.
  assert (Hmr0 : 0 <= mr) by lia.
  destruct (Zdigits2_nonneg mx Hm) as (Hdx & _ & _).
  destruct (Zdigits2_nonneg m1 Hm1) as (Hdm1 & Hdm1' & Hdm1'').
  destruct (Zdigits2_nonneg mr Hmr0) as (Hdr & Hdr' & Hdr'').
  assert (Hdr2 : Zdigits2 mr = Zdigits2 m1 \/ Zdigits2 mr = Zdigits2 m1 + 1).
  { destruct Hmr as [-> | ->]; [left; reflexivity | ].
    apply Zdigits2_succ. exact Hm1. }
  assert (Hgood : fexp prec emax (Z.max 1 (Zdigits2 m1) + e1) = e1).
  { unfold fexp in *. lia. }
  assert (He2 : e1 <= fexp prec emax (Zdigits2 mr + e1)).
  { destruct (Z.eq_dec mr 0) as [Hz | Hnz].
    - assert (Hz1 : Zdigits2 m1 = 0) by (replace m1 with 0 by lia; reflexivity).
      rewrite Hz. simpl Zdigits2. unfold fexp in *. lia.
    - assert (1 <= Zdigits2 mr) by (apply Hdr'; lia).
      unfold fexp in *. lia. }
  destruct (shr_fexp_spec mr e1 loc_Exact Hmr0 He2) as (He3 & Hm2 & Hd2).
  destruct (shr_fexp prec emax mr e1 loc_Exact) as [mrs2 e2].
  cbn [fst snd] in *.
  destruct (shr_m mrs2) as [ | m2 | m2] eqn:Hm2e; [reflexivity | | reflexivity].
  destruct (e2 <=? emax - prec) eqn:Hle; [ | reflexivity].
  cbn [valid_binary]. unfold bounded, canonical_mantissa.
  rewrite Hle, andb_true_r. apply Z.eqb_eq.
  cbn [Zdigits2] in Hd2.
  assert (Hpos : 1 <= Zdigits2 mr).
  { destruct (Z.eq_dec mr 0) as [E0 | Hnz]; [ | apply Hdr'; lia].
    assert (Hz : Zdigits2 mr = 0) by (replace mr with 0 by lia; reflexivity).
    unfold fexp in *. lia. }
  unfold fexp in *. lia.
Qed.

(** [binary_round] aligns the mantissa first, so its result is always a
    number of the format. *)
Lemma binary_round_is_valid (s : bool) (m : positive) (e : Z) :
  valid_binary prec emax (binary_round prec emax s m e) = true.
Proof.
  unfold binary_round.
  set (fe := fexp prec emax (Zpos (digits2_pos m) + e)).
  unfold shl_align.
  destruct (fe - e) as [ | d | d] eqn:Hd.
  - apply binary_round_aux_valid; [lia | ]. cbn [Zdigits2]. fold fe. lia.
  - apply binary_round_aux_valid; [lia | ]. cbn [Zdigits2]. fold fe. lia.
  - apply binary_round_aux_valid; [lia | ]. cbn [Zdigits2].
    rewrite digits2_pos_shift.
    replace (Zpos (digits2_pos m + d) + fe)
      with (Zpos (digits2_pos m) + e) by lia.
    fold fe. lia.
Qed.

Lemma digits2_pos_bounds (p : positive) :
  2 ^ (Zpos (digits2_pos p) - 1) <= Zpos p < 2 ^ Zpos (digits2_pos p).
Proof.
  induction p as [p IH | p IH | ]; cbn [digits2_pos].
  - rewrite Pos2Z.inj_succ.
    replace (Z.succ (Zpos (digits2_pos p)) - 1)
      with (Z.succ (Zpos (digits2_pos p) - 1)) by lia.
    rewrite !Z.pow_succ_r by lia. lia.
  - rewrite Pos2Z.inj_succ.
    replace (Z.succ (Zpos (digits2_pos p)) - 1)
      with (Z.succ (Zpos (digits2_pos p) - 1)) by lia.
    rewrite !Z.pow_succ_r by lia. lia.
  - simpl. lia.
Qed.

(** A number at least [2^j] has more than [j] digits. *)
Lemma Zdigits2_lower (m j : Z) :
  0 <= j -> 2 ^ j <= m -> j + 1 <= Zdigits2 m.
Proof.
  intros Hj Hm. assert (0 < 2 ^ j) by (apply Z.pow_pos_nonneg; lia).
  destruct m as [ | p | p]; try lia.
  cbn [Zdigits2]. destruct (digits2_pos_bounds p) as [_ Hup].
  assert (Hlt : 2 ^ j < 2 ^ Zpos (digits2_pos p)) by lia.
  apply Z.pow_lt_mono_r_iff in Hlt; lia.
Qed.

Lemma digits2_pos_mul (x y : positive) :
  Zpos (digits2_pos x) + Zpos (digits2_pos y) - 1
  <= Zpos (digits2_pos (x * y)).
Proof.
  destruct (digits2_pos_bounds x) as [Hx _].
  destruct (digits2_pos_bounds y) as [Hy _].
  assert (H := Zdigits2_lower (Zpos (x * y))
                 (Zpos (digits2_pos x) - 1 + (Zpos (digits2_pos y) - 1))).
  cbn [Zdigits2] in H.
  assert (Hprod : 2 ^ (Zpos (digits2_pos x) - 1 + (Zpos (digits2_pos y) - 1))
                  <= Zpos (x * y)).
  { rewrite Z.pow_add_r by lia. rewrite Pos2Z.inj_mul.
    apply Z.mul_le_mono_nonneg; try lia;
      apply Z.pow_nonneg; lia. }
  specialize (H ltac:(lia) Hprod). lia.
Qed.

Hypothesis Hemin : emin prec emax <= 0.

(** The product of two numbers of the format is a number of the format. *)
Lemma SFmul_valid (x y : spec_float) :
  valid_binary prec emax x = true -> valid_binary prec emax y = true ->
  valid_binary prec emax (SFmul prec emax x y) = true.
Proof.
  destruct x as [sx | sx | | sx mx ex], y as [sy | sy | | sy my ey];
    try reflexivity.
  cbn [valid_binary SFmul]. unfold bounded, canonical_mantissa.
  intros Hx Hy.
  apply andb_true_iff in Hx, Hy. destruct Hx as [Hx _], Hy as [Hy _].
  apply Z.eqb_eq in Hx, Hy.
  apply binary_round_aux_valid; [lia | ]. cbn [Zdigits2].
  assert (Hd := digits2_pos_mul mx my).
  unfold fexp in *. lia.
Qed.

(** Every quotient is a number of the format. *)
Lemma SFdiv_core_binary_spec (mx my : positive) (ex ey : Z) :
  let '(q, e', _) := SFdiv_core_binary prec emax (Zpos mx) ex (Zpos my) ey in
  0 <= q /\ e' <= fexp prec emax (Zdigits2 q + e').
Proof.
  unfold SFdiv_core_binary. cbn [Zdigits2].
  set (d1 := Zpos (digits2_pos mx)). set (d2 := Zpos (digits2_pos my)).
  set (z := d1 + ex - (d2 + ey)).
  set (e' := Z.min (fexp prec emax z) (ex - ey)).
  set (sh := ex - ey - e').
  set (m' := match sh with
             | Zpos _ => Z.shiftl (Zpos mx) sh
             | 0 => Zpos mx
             | Zneg _ => 0
             end).
  assert (Hsh : 0 <= sh) by (unfold sh, e'; lia).
  assert (Hm' : m' = Zpos mx * 2 ^ sh).
  { unfold m'. destruct sh as [ | p | p] eqn:E; try lia.
    rewrite Z.shiftl_mul_pow2 by lia. reflexivity. }
  assert (Hpow : 0 < 2 ^ sh) by (apply Z.pow_pos_nonneg; lia).
  assert (Hm'0 : 0 <= m') by (rewrite Hm'; lia).
  assert (Hdiv := Z_div_mod m' (Zpos my) ltac:(lia)).
  destruct (Z.div_eucl m' (Zpos my)) as [q r].
  destruct Hdiv as [Hqr Hr].
  assert (Hq : 0 <= q) by nia.
  split; [exact Hq | ].
  assert (Hdq : d1 + sh - d2 <= Zdigits2 q).
  { destruct (Zdigits2_nonneg q Hq) as (Hd0 & _ & _).
    destruct (Z_le_gt_dec (d1 + sh - d2) 0) as [Hle | Hgt]; [lia | ].
    set (j := d1 + sh - d2 - 1).
    assert (Hj : 0 <= j) by (unfold j; lia).
    destruct (digits2_pos_bounds mx) as [Hmx _].
    destruct (digits2_pos_bounds my) as [_ Hmy].
    fold d1 in Hmx. fold d2 in Hmy.
    assert (Hlow : 2 ^ (d1 - 1) * 2 ^ sh <= m') by (rewrite Hm'; nia).
    rewrite <- Z.pow_add_r in Hlow by (unfold d1; lia).
    replace (d1 - 1 + sh) with (d2 + j) in Hlow by (unfold j; lia).
    rewrite Z.pow_add_r in Hlow by (unfold d2; lia).
    assert (Hj2 : 0 < 2 ^ j) by (apply Z.pow_pos_nonneg; lia).
    assert (Hq2 : 2 ^ j <= q) by nia.
    assert (H := Zdigits2_lower q j Hj Hq2). unfold j in H. lia. }
  assert (He' : e' <= fexp prec emax z) by (unfold e'; lia).
  assert (Hz : z <= Zdigits2 q + e') by (unfold z, sh in *; lia).
  clearbody e' z. unfold fexp in *. lia.
Qed.

Lemma SFdiv_valid (x y : spec_float) :
  valid_binary prec emax (SFdiv prec emax x y) = true.
Proof.
  destruct x as [sx | sx | | sx mx ex], y as [sy | sy | | sy my ey];
    try reflexivity.
  cbn [SFdiv].
  assert (H := SFdiv_core_binary_spec mx my ex ey).
  destruct (SFdiv_core_binary prec emax (Zpos mx) ex (Zpos my) ey)
    as [[q e'] l].
  destruct H as [Hq He]. apply binary_round_aux_valid; assumption.
Qed.
End Validity.

Lemma scalar_type_format (t : scalar_type) :
  1 < prec (format_of t)
  /\ emin (prec (format_of t)) (emax (format_of t)) <= 0.
Proof. destruct t; unfold emin; simpl; lia. Qed.

Lemma static_cast_valid (a b : format) (x : fp a) :
  1 < prec b -> valid x = true ->
  valid (static_cast (B := fp b) x) = true.
Proof.
  intros Hb Hv. unfold static_cast, fp_cast.
  destruct (format_eqb a b) eqn:Hab.
  - apply format_eqb_eq in Hab. subst b. exact Hv.
  - unfold convert, valid.
    destruct (sf x) as [s | s | | s m e]; cbn [sf]; try reflexivity.
    apply binary_round_is_valid. exact Hb.
Qed.

(** X10: [IdentityFunctor] returns a value of its output type: for a
    value [x] of the input type, the result is a number of the format of
    [Ty] (canonical mantissa, exponent in range), a zero, an infinity or
    NaN, whatever the two types are. *)
Theorem IdentityFunctor_valid
    (a : format) (t : scalar_type) (n : int) (x : fp a) :
  valid x = true ->
  valid (IdentityFunctor_call (Ty := fp (format_of t)) (IdentityFunctor_new n) x)
  = true.
Proof.
  intros Hv. unfold IdentityFunctor_call.
  apply static_cast_valid; [apply scalar_type_format | exact Hv].
Qed.

Lemma IdentityFunctor_valid_witness :
  valid (FP (fmt := binary64) (S754_finite false 4503599627370496 200)) = true
  /\ valid (IdentityFunctor_call (Tx := double) (Ty := float16)
              (IdentityFunctor_new 0)
              (FP (S754_finite false 4503599627370496 200)))
     = true.
Proof.
  split; [reflexivity | ].
  apply (IdentityFunctor_valid binary64 float16_t 0
           (FP (S754_finite false 4503599627370496 200))).
  reflexivity.
Defined.

(** X11: [DivideFunctor] keeps its values in the type: for every count
    [n], zero and negative counts included, the stored reciprocal is a
    value of [T], and applied to a value of [T] the functor returns a
    value of [T]. *)
Theorem DivideFunctor_valid
    (t : scalar_type) (n : int) (x : fp (format_of t)) :
  valid x = true ->
  valid (n_inv (DivideFunctor_new (T := fp (format_of t)) n)) = true
  /\ valid (DivideFunctor_call (DivideFunctor_new n) x) = true.
Proof.
  intros Hv. destruct (scalar_type_format t) as [Hp He].
  assert (Hinv : valid (n_inv (DivideFunctor_new (T := fp (format_of t)) n))
                 = true).
  { unfold DivideFunctor_new. cbn [n_inv].
    apply static_cast_valid; [exact Hp | ].
    unfold valid, fdiv. cbn [sf].
    apply SFdiv_valid; unfold emin; simpl; lia. }
  split; [exact Hinv | ].
  unfold DivideFunctor_call, mul, fp_mul, fmul, valid. cbn [sf].
  apply SFmul_valid; assumption.
Qed.

Lemma DivideFunctor_valid_witness :
  valid (of_Z binary32 1000000) = true
  /\ valid (n_inv (DivideFunctor_new (T := float) 7)) = true
  /\ valid (DivideFunctor_call (T := float) (DivideFunctor_new 7)
              (of_Z binary32 1000000)) = true.
Proof.
  split; [reflexivity | ].
  apply (DivideFunctor_valid float_t 7 (of_Z binary32 1000000)).
  reflexivity.
Defined.

(** ** Finite numbers beyond the range of the output type *)

Section Overflow.
Variables prec emax : Z.
Hypothesis Hprec : 1 < prec.
Hypothesis Hemax : 2 <= emax.

(** A number of magnitude [2^emax] or more rounds to an infinity. *)
Lemma binary_round_aux_overflow (s : bool) (mx ex : Z) (lx : location) :
  0 < mx -> ex <= fexp prec emax (Zdigits2 mx + ex) ->
  emax < Zdigits2 mx + ex ->
  binary_round_aux prec emax s mx ex lx = S754_infinity s.
Proof.
  intros Hm He Hbig. unfold binary_round_aux.
  assert (Hm0 : 0 <= mx) by lia.
  destruct (shr_fexp_spec prec emax mx ex lx Hm0 He) as (He1 & Hm1 & Hd1).
  destruct (shr_fexp prec emax mx ex lx) as [mrs1 e1]. cbn [fst snd] in *.
  set (m1 := shr_m mrs1) in *.
  set (mr := round_nearest_even m1 (loc_of_shr_record mrs1)).
  assert (Hmr : mr = m1 \/ mr = m1 + 1) by apply round_nearest_even_spec.
  assert (Hmr0 : 0 <= mr) by lia.
  assert (Hdr2 : Zdigits2 mr = Zdigits2 m1 \/ Zdigits2 mr = Zdigits2 m1 + 1).
  { destruct Hmr as [-> | ->]; [left; reflexivity | ].
    apply Zdigits2_succ. exact Hm1. }
  assert (Hfe : fexp prec emax (Zdigits2 mx + ex) = Zdigits2 mx + ex - prec).
  { unfold fexp, emin. lia. }
  assert (Hdg1 : Zdigits2 m1 = prec) by lia.
  assert (He2 : e1 <= fexp prec emax (Zdigits2 mr + e1)).
  { unfold fexp, emin in *. lia. }
  destruct (shr_fexp_spec prec emax mr e1 loc_Exact Hmr0 He2)
    as (He3 & Hm2 & Hd2).
  destruct (shr_fexp prec emax mr e1 loc_Exact) as [mrs2 e2].
  cbn [fst snd] in *.
  assert (Hfe2 : fexp prec emax (Zdigits2 mr + e1) = Zdigits2 mr + e1 - prec).
  { unfold fexp, emin in *. lia. }
  destruct (shr_m mrs2) as [ | m2 | m2] eqn:Hm2e.
  - simpl Zdigits2 in Hd2. lia.
  - assert (Hgt : (e2 <=? emax - prec) = false) by (apply Z.leb_gt; lia).
    rewrite Hgt. reflexivity.
  - lia.
Qed.

Lemma binary_round_overflow (s : bool) (m : positive) (e : Z) :
  emax < Zpos (digits2_pos m) + e ->
  binary_round prec emax s m e = S754_infinity s.
Proof.
  intros Hbig. unfold binary_round.
  set (fe := fexp prec emax (Zpos (digits2_pos m) + e)).
  unfold shl_align.
  destruct (fe - e) as [ | d | d] eqn:Hd.
  - apply binary_round_aux_overflow; cbn [Zdigits2]; fold fe; lia.
  - apply binary_round_aux_overflow; cbn [Zdigits2]; fold fe; lia.
  - apply binary_round_aux_overflow; cbn [Zdigits2];
      rewrite ?digits2_pos_shift;
      replace (Zpos (digits2_pos m + d) + fe)
        with (Zpos (digits2_pos m) + e) by lia;
      fold fe; lia.
Qed.
End Overflow.

(** X12: a finite input too large for the output type becomes an
    infinity without any failure: when [Ty] differs from [Tx] and [x] has
    magnitude at least [2^emax] of [Ty] (128 for [float], 16 for
    [float16]), [IdentityFunctor<Tx, Ty>] returns the infinity of the sign
    of [x]. *)
Theorem IdentityFunctor_overflow
    (a : format) (t : scalar_type) (n : int)
    (s : bool) (m : positive) (e : Z) :
  format_eqb a (format_of t) = false ->
  emax (format_of t) < Zpos (digits2_pos m) + e ->
  IdentityFunctor_call (Tx := fp a) (Ty := fp (format_of t))
    (IdentityFunctor_new n) (FP (S754_finite s m e))
  = FP (S754_infinity s).
Proof.
  intros Hne Hbig. unfold IdentityFunctor_call, static_cast, fp_cast.
  rewrite Hne. unfold convert. cbn [sf]. f_equal.
  apply binary_round_overflow; [ | | exact Hbig]; destruct t; simpl; lia.
Qed.

Lemma IdentityFunctor_overflow_witness :
  (format_eqb binary64 (format_of float_t) = false
   /\ emax (format_of float_t)
      < Zpos (digits2_pos 4503599627370496) + 76)
  /\ IdentityFunctor_call (Tx := double) (Ty := float)
       (IdentityFunctor_new 1) (FP (S754_finite true 4503599627370496 76))
     = FP (S754_infinity true).
Proof.
  split; [split; reflexivity | ].
  apply (IdentityFunctor_overflow binary64 float_t 1 true
           4503599627370496 76); reflexivity.
Defined.
